(** * BufferStockModel/nvfi.py: one period of nonlinear value function iteration

    A shallow embedding of [obj_bellman] and [solve_bellman].

    - Scalars.  The kernel is compiled for IEEE binary64; it uses [-] (binary
      and unary), [+], [/ 2], [np.fmin] and the literal [1e-8].  These are
      collected in the class [Scalar]; its instance is the primitive binary64
      floats, the arithmetic the code runs on.  What does not depend on the
      arithmetic is proved for any instance of the class.
    - Arrays.  A numpy array is a list (of lists).  The kernel is compiled
      with [@njit], which does no bounds checking: the source says what a
      call does only when every index it uses lies inside its array.  The
      embedding covers exactly these calls: a read or a store outside the
      shape, when the outcome depends on it, has no result ([None]), and no
      property below says what such a call does.  The read of
      [par.grid_p[ip]], whose value nothing uses, is kept as a binding and
      constrains nothing.  A negative time index counts from the end.
    - Collaborators.  [utility.func], [linear_interp.interp_1d] and the
      optimizer built by [golden_section_search.create_optimizer] are not part
      of the file; they are the fields of the class [Collaborators], and
      every property below is stated for an arbitrary instance of it. *)

From Stdlib Require Import ZArith Floats Lia Permutation.
From Stdlib Require Import FunctionalExtensionality.
From stdpp Require Import base tactics option list.

Set Default Proof Using "Type".

(** ** Scalar arithmetic used by the kernel *)

Class Scalar (F : Type) := {
  s_add  : F -> F -> F;      (* x + y *)
  s_sub  : F -> F -> F;      (* x - y *)
  s_neg  : F -> F;           (* -x *)
  s_div  : F -> F -> F;      (* x / y *)
  s_two  : F;                (* the literal 2 *)
  s_eps  : F;                (* the literal 1e-8 *)
  s_fmin : F -> F -> F       (* np.fmin *)
}.

(** *** IEEE binary64 *)

Module Float64.

Definition is_nan (x : float) : bool := negb (PrimFloat.eqb x x).

(** [np.fmin(x, y)]: the smaller operand, a NaN operand being ignored:
    [(x <= y || isnan(y)) ? x : y]. *)
Definition fmin (x y : float) : float :=
  if (PrimFloat.leb x y || is_nan y)%bool then x else y.

(** The double nearest to [1e-8]. *)
Definition eps : float := 0x1.5798ee2308c3ap-27%float.

(** [lo <= x <= hi]. *)
Definition in_bracket (lo hi x : float) : bool :=
  (PrimFloat.leb lo x && PrimFloat.leb x hi)%bool.


(** A bracket that has collapsed: its two ends coincide, or its lower end
    is zero. *)
Definition degenerate_bracket (lo hi : float) : bool :=
  (PrimFloat.eqb lo hi || PrimFloat.eqb lo 0%float)%bool.

#[global] Instance scalar : Scalar float := {|
  s_add := PrimFloat.add;
  s_sub := PrimFloat.sub;
  s_neg := PrimFloat.opp;
  s_div := PrimFloat.div;
  s_two := 2%float;
  s_eps := eps;
  s_fmin := fmin
|}.

End Float64.

(** ** Arrays with Python indexing *)

(** [a[i]] for a Python integer [i] on an axis of length [n]: [-n <= i < 0]
    counts from the end, anything outside [-n, n) is outside the array. *)
Definition py_index (n : nat) (i : Z) : option nat :=
  if decide (0 <= i < Z.of_nat n)%Z then Some (Z.to_nat i)
  else if decide (- Z.of_nat n <= i < 0)%Z then Some (Z.to_nat (i + Z.of_nat n))
  else None.

(** [range(n)] for a Python integer [n] (empty when [n <= 0]). *)
Definition range (n : Z) : list nat := seq 0 (Z.to_nat n).

Section Array.
Context {A : Type}.

(** [a[t]] on the first axis. *)
Definition slice (a : list (list (list A))) (t : Z) : option (list (list A)) :=
  i ← py_index (length a) t; a !! i.

(** [a[i, j]] read. *)
Definition get2 (a : list (list A)) (i j : nat) : option A :=
  row ← a !! i; row !! j.

(** [a[i, j] = x]. *)
Definition set2 (a : list (list A)) (i j : nat) (x : A) : option (list (list A)) :=
  row ← a !! i;
  if decide (j < length row) then Some (<[i := <[j := x]> row]> a) else None.

(** [a[t][i, j]] read. *)
Definition get3 (a : list (list (list A))) (t : Z) (i j : nat) : option A :=
  at_ ← slice a t; get2 at_ i j.

(** The row lengths of a two-dimensional array. *)
Definition shape (a : list (list A)) : list nat := length <$> a.

(** Is (i, j) inside an array of row lengths [sh]? *)
Definition in_shape (sh : list nat) (i j : nat) : bool :=
  match sh !! i with
  | Some n => bool_decide (j < n)
  | None => false
  end.

(** [a'] is [a] with the entries selected by [visited] overwritten by
    [val], and nothing else touched. *)
Definition updated (visited : nat -> nat -> Prop) (val : nat -> nat -> option A)
    (a a' : list (list A)) : Prop :=
  shape a' = shape a /\
  forall i j, (visited i j -> get2 a' i j = val i j) /\
              (~ visited i j -> get2 a' i j = get2 a i j).

End Array.

(** A loop [for i in is: s = body(i, s)].  It has a result when every
    iteration has one, that is, when no iteration leaves its arrays. *)
Fixpoint for_range {S : Type} (body : nat -> S -> option S) (is_ : list nat) (s : S)
  : option S :=
  match is_ with
  | [] => Some s
  | i :: rest => s' ← body i s; for_range body rest s'
  end.

(** ** The data model *)

(** [par]: the grids, their declared sizes, the optimizer tolerance and the
    fields read by the utility function ([prefs]). *)
Record Par (F U : Type) := mkPar {
  Np : Z;
  Nm : Z;
  grid_p : list F;
  grid_m : list F;
  grid_a : list F;
  tol : F;
  prefs : U
}.
Arguments mkPar {F U}.
Arguments Np {F U}.
Arguments Nm {F U}.
Arguments grid_p {F U}.
Arguments grid_m {F U}.
Arguments grid_a {F U}.
Arguments tol {F U}.
Arguments prefs {F U}.

(** [sol]: [sol.v] and [sol.c] are indexed by time, then by (ip, im);
    [sol.w] by (ip, ia).  The three are distinct arrays. *)
Record Sol (F : Type) := mkSol {
  sol_v : list (list (list F));
  sol_c : list (list (list F));
  sol_w : list (list F)
}.
Arguments mkSol {F}.
Arguments sol_v {F}.
Arguments sol_c {F}.
Arguments sol_w {F}.

(** The collaborators of the kernel.
    - [utility.func(c, par)].
    - [linear_interp.interp_1d(grid, value, xi)].
    - The optimizer made by [golden_section_search.create_optimizer(obj)],
      called as [opt(a, b, tol, *args)]: it minimises [x |-> obj(x, *args)]
      over the bracket [a, b].  The objective is passed already applied to
      its payload. *)
Class Collaborators (F U : Type) := {
  utility_func : F -> Par F U -> F;
  interp_1d : list F -> list F -> F -> F;
  golden_section_search : (F -> F) -> F -> F -> F -> F
}.

Definition set_grid_p {F U} (par : Par F U) (gp : list F) : Par F U :=
  mkPar (Np par) (Nm par) gp (grid_m par) (grid_a par) (tol par) (prefs par).

(** ** The kernel *)

Section Kernel.
Context {F U : Type} `{Scalar F} {K : Collaborators F U}.

Definition obj_bellman (c m : F) (interp_w : list F) (par : Par F U) : F :=
  (* a. end-of-period assets *)
  let a := s_sub m c in
  (* b. continuation value *)
  let w := interp_1d (grid_a par) interp_w a in
  (* c. total value *)
  let value_of_choice := s_add (utility_func c par) w in
  s_neg value_of_choice.

Definition opt_bellman (a b tol_ m : F) (interp_w : list F) (par : Par F U) : F :=
  golden_section_search (fun c => obj_bellman c m interp_w par) a b tol_.

(** The body of the loop over [im], on the two views [c = sol.c[t]] and
    [v = sol.v[t]]. *)
Definition cell_step (sol : Sol F) (par : Par F U) (ip im : nat)
    (cv : list (list F) * list (list F)) : option (list (list F) * list (list F)) :=
  let '(c, v) := cv in
  (* i. cash-on-hand *)
  m ← grid_m par !! im;
  (* ii. optimal choice *)
  let c_low := s_fmin (s_div m s_two) s_eps in
  let c_high := m in
  w_ip ← sol_w sol !! ip;
  c' ← set2 c ip im (opt_bellman c_low c_high (tol par) m w_ip par);
  (* iii. optimal value *)
  c_ipim ← get2 c' ip im;
  w_ip' ← sol_w sol !! ip;
  v' ← set2 v ip im (s_neg (obj_bellman c_ipim m w_ip' par));
  Some (c', v').

(** The body of the loop over [ip], with the inner loop running over [ims]. *)
Definition row_step (sol : Sol F) (par : Par F U) (ims : list nat) (ip : nat)
    (cv : list (list F) * list (list F)) : option (list (list F) * list (list F)) :=
  (* a. permanent income: read, and used by nothing *)
  let p := grid_p par !! ip in
  (* b. loop over cash-on-hand *)
  for_range (cell_step sol par ip) ims cv.

(** [solve_bellman] with the iterations of the two loops run in the order
    of [ips] and [ims]. *)
Definition solve_bellman_sched (ips ims : list nat) (t : Z) (sol : Sol F)
    (par : Par F U) : option (Sol F) :=
  (* unpack *)
  it_v ← py_index (length (sol_v sol)) t;
  v ← sol_v sol !! it_v;
  it_c ← py_index (length (sol_c sol)) t;
  c ← sol_c sol !! it_c;
  (* loop over outer states *)
  '(c', v') ← for_range (row_step sol par ims) ips (c, v);
  (* [c] and [v] are views: the writes land in [sol.c[t]] and [sol.v[t]] *)
  Some (mkSol (<[it_v := v']> (sol_v sol)) (<[it_c := c']> (sol_c sol)) (sol_w sol)).

Definition solve_bellman (t : Z) (sol : Sol F) (par : Par F U) : option (Sol F) :=
  solve_bellman_sched (range (Np par)) (range (Nm par)) t sol par.

(** *** What one grid point computes *)

Definition bracket_low (m : F) : F := s_fmin (s_div m s_two) s_eps.

Definition cell_c (par : Par F U) (w_ip : list F) (m : F) : F :=
  opt_bellman (bracket_low m) m (tol par) m w_ip par.

Definition cell_v (par : Par F U) (w_ip : list F) (m : F) : F :=
  s_neg (obj_bellman (cell_c par w_ip m) m w_ip par).

Definition cell_at (f : Par F U -> list F -> F -> F) (sol : Sol F) (par : Par F U)
    (ip im : nat) : option F :=
  m ← grid_m par !! im; w_ip ← sol_w sol !! ip; Some (f par w_ip m).

(** *** The inputs on which every index used lies inside its array *)

Definition cell_ok (sol : Sol F) (par : Par F U) (shc shv : list nat)
    (ip im : nat) : bool :=
  bool_decide (is_Some (grid_m par !! im)) && bool_decide (is_Some (sol_w sol !! ip))
  && in_shape shc ip im && in_shape shv ip im.

Definition row_ok (sol : Sol F) (par : Par F U) (shc shv : list nat)
    (ims : list nat) (ip : nat) : bool :=
  forallb (cell_ok sol par shc shv ip) ims.

Definition well_shaped_sched (ips ims : list nat) (t : Z) (sol : Sol F)
    (par : Par F U) : bool :=
  match slice (sol_v sol) t, slice (sol_c sol) t with
  | Some v, Some c => forallb (row_ok sol par (shape c) (shape v) ims) ips
  | _, _ => false
  end.

(** [t] indexes a slice of [sol.v] and of [sol.c]; and, when both loops
    have an iteration, [sol.w] has at least [Np] rows, [grid_m] at least
    [Nm] entries, and the slices [sol.c[t]] and [sol.v[t]] are at least [Np]
    by [Nm]. *)
Definition well_shaped (t : Z) (sol : Sol F) (par : Par F U) : bool :=
  well_shaped_sched (range (Np par)) (range (Nm par)) t sol par.

End Kernel.

(** ** Instances of the collaborators, used to run the kernel *)

Module Float64Run.
Import Float64.
Local Open Scope float_scope.

(** Modelled from the spec: [utility.func] is not among the sources; this
    is the CRRA utility with risk aversion 2 of the spec's test scenario,
    [c^(1-2)/(1-2)]. *)
Definition crra2 (c : float) (par : Par float unit) : float := - (1 / c).

(** Modelled from the spec: the interpolator contract, piecewise-linear on
    an increasing grid, the edge segments extended outwards. *)
Fixpoint interp_lin (grid value : list float) (xi : float) : float :=
  match grid, value with
  | g0 :: ((g1 :: grest) as gtail), v0 :: ((v1 :: _) as vtail) =>
      let y := v0 + (xi - g0) / (g1 - g0) * (v1 - v0) in
      match grest with
      | [] => y
      | _ :: _ => if xi <? g1 then y else interp_lin gtail vtail xi
      end
  | _, v0 :: _ => v0
  | _, [] => 0
  end.

Definition inv_phi : float := (sqrt 5 - 1) / 2.
Definition inv_phi_sq : float := (3 - sqrt 5) / 2.

(** Modelled from the spec: the scalar optimizer contract.  Golden-section
    narrowing of the bracket [a, b] with interior points [c < d]; stops
    when the bracket is within [tol_] (or out of fuel). *)
Fixpoint golden_loop (fuel : nat) (f : float -> float)
    (a b c d yc yd dist tol_ : float) : float :=
  match fuel with
  | O => if yc <? yd then (a + d) / 2 else (c + b) / 2
  | S fuel' =>
      if dist <=? tol_ then (if yc <? yd then (a + d) / 2 else (c + b) / 2)
      else if yc <? yd then
        let dist' := inv_phi * dist in
        let c' := a + inv_phi_sq * dist' in
        golden_loop fuel' f a d c' c (f c') yc dist' tol_
      else
        let dist' := inv_phi * dist in
        let d' := c + inv_phi * dist' in
        golden_loop fuel' f c b d d' yd (f d') dist' tol_
  end.

Definition golden (f : float -> float) (a b tol_ : float) : float :=
  let dist := b - a in
  if dist <=? tol_ then (a + b) / 2
  else
    let c := a + inv_phi_sq * dist in
    let d := a + inv_phi * dist in
    golden_loop 200 f a b c d (f c) (f d) dist tol_.

(** An optimizer that gives up at once and returns the lower bound. *)
Definition lower_end (f : float -> float) (a b tol_ : float) : float := a.


(** A utility that is not a number anywhere. *)
Definition broken_utility (c : float) (par : Par float unit) : float := nan.

(** A utility that is the same everywhere. *)
Definition flat_utility (c : float) (par : Par float unit) : float := 0.



(** An interpolator that answers [0] at every number and [1] where the
    query is not a number. *)
Definition interp_flag (grid value : list float) (xi : float) : float :=
  if is_nan xi then 1 else 0.

(** One income level, three cash-on-hand levels, continuation value
    [w(a) = 4 a] tabulated on two asset levels. *)
Definition par0 : Par float unit :=
  mkPar 1 3 [1] [1; 5; 10] [0; 10] 0x1p-30 tt.

Definition sol0 : Sol float :=
  mkSol [[[0; 0; 0]]; [[0; 0; 0]]] [[[0; 0; 0]]; [[0; 0; 0]]] [[0; 40]].

(** The smallest positive double as the only cash-on-hand level. *)
Definition par_tiny : Par float unit :=
  mkPar 1 1 [1] [0x1p-1074] [0; 10] 0x1p-30 tt.

Definition sol_tiny : Sol float :=
  mkSol [[[1]]] [[[1]]] [[0; 40]].

(** Two cash-on-hand levels, the first one infinitely negative. *)
Definition par_inf : Par float unit :=
  mkPar 1 2 [1] [neg_infinity; 0] [0; 10] 0x1p-30 tt.

Definition sol_inf : Sol float :=
  mkSol [[[0; 0]]] [[[0; 0]]] [[0; 40]].

(** The utility, the interpolator and the optimizer above. *)
Definition kit : Collaborators float unit :=
  {| utility_func := crra2; interp_1d := interp_lin; golden_section_search := golden |}.

Definition kit_lower_end : Collaborators float unit :=
  {| utility_func := crra2; interp_1d := interp_lin; golden_section_search := lower_end |}.

Definition kit_broken : Collaborators float unit :=
  {| utility_func := broken_utility; interp_1d := interp_lin;
     golden_section_search := golden |}.


Definition kit_flat : Collaborators float unit :=
  {| utility_func := flat_utility; interp_1d := interp_flag;
     golden_section_search := lower_end |}.

Definition solve (t : Z) (sol : Sol float) (par : Par float unit) :=
  solve_bellman (K := kit) t sol par.

(** What the call leaves in the two containers. *)
Definition sol0_solved : Sol float :=
  Eval vm_compute in default sol0 (solve 0 sol0 par0).

Definition sol_tiny_solved : Sol float :=
  Eval vm_compute in default sol_tiny (solve 0 sol_tiny par_tiny).


Definition sol_inf_solved : Sol float :=
  Eval vm_compute in default sol_inf (solve_bellman (K := kit_flat) 0 sol_inf par_inf).


End Float64Run.

(** Inputs at the edges of the loops. *)
Module EdgeRun.
Import Float64 Float64Run.
Local Open Scope float_scope.

(** No income level at all. *)
Definition par_no_income : Par float unit :=
  mkPar 0 3 [] [1; 5; 10] [0; 10] 0x1p-30 tt.

(** The first and the last cash-on-hand level coincide; two income levels
    share one continuation row. *)
Definition par_twice : Par float unit :=
  mkPar 2 3 [1; 2] [1; 5; 1] [0; 10] 0x1p-30 tt.

Definition sol_twice : Sol float :=
  mkSol [[[0; 0; 0]; [0; 0; 0]]] [[[0; 0; 0]; [0; 0; 0]]] [[0; 40]; [0; 40]].

Definition sol_twice_solved : Sol float :=
  Eval vm_compute in default sol_twice (solve 0 sol_twice par_twice).

(** A container larger than the grid: three rows of four columns. *)
Definition sol_wide : Sol float :=
  mkSol [[[7; 7; 7; 7]; [7; 7; 7; 7]; [7; 7; 7; 7]]]
        [[[9; 9; 9; 9]; [9; 9; 9; 9]; [9; 9; 9; 9]]] [[0; 40]].

Definition sol_wide_solved : Sol float :=
  Eval vm_compute in default sol_wide (solve 0 sol_wide par0).

(** Period 1 solved first, and both periods solved. *)
Definition sol0_solved_1 : Sol float :=
  Eval vm_compute in default sol0 (solve 1 sol0 par0).

Definition sol0_solved_both : Sol float :=
  Eval vm_compute in default sol0 (solve 1 sol0_solved par0).

Definition sol0_broken : Sol float :=
  Eval vm_compute in default sol0 (solve_bellman (K := kit_broken) 0 sol0 par0).

End EdgeRun.

(** * Facts about arrays and loops *)

Lemma elem_of_range (n : Z) (i : nat) : i ∈ range n <-> (Z.of_nat i < n)%Z.
Proof. unfold range. rewrite elem_of_seq. lia. Qed.

Lemma py_index_lt (n : nat) (t : Z) (i : nat) : py_index n t = Some i -> i < n.
Proof. unfold py_index. repeat case_decide; intros [= <-]; lia. Qed.

Section ArrayFacts.
Context {A : Type}.
Implicit Types (a b : list (list A)) (i j : nat) (x : A).

Lemma set2_Some a i j x a' :
  set2 a i j x = Some a' <->
  exists row, a !! i = Some row /\ j < length row /\ a' = <[i := <[j := x]> row]> a.
Proof.
  unfold set2. split.
  - intros Hs. destruct (a !! i) as [row|] eqn:Hrow; simpl in Hs; [|done].
    case_decide; [|done]. injection Hs as <-. eauto.
  - intros (row & -> & Hj & ->). simpl. by rewrite decide_True.
Qed.

Lemma shape_set2 a i j x a' : set2 a i j x = Some a' -> shape a' = shape a.
Proof.
  intros (row & Hrow & Hj & ->)%set2_Some. unfold shape.
  rewrite list_fmap_insert, length_insert.
  apply list_insert_id. by rewrite list_lookup_fmap, Hrow.
Qed.

Lemma get2_set2 a i j x a' i' j' :
  set2 a i j x = Some a' ->
  get2 a' i' j' = if decide (i' = i /\ j' = j) then Some x else get2 a i' j'.
Proof.
  intros (row & Hrow & Hj & ->)%set2_Some. unfold get2.
  destruct (decide (i' = i)) as [->|Hi].
  - rewrite list_lookup_insert_eq by (by eapply lookup_lt_Some). simpl.
    rewrite Hrow. simpl.
    destruct (decide (j' = j)) as [->|Hj'].
    + rewrite decide_True by done. by apply list_lookup_insert_eq.
    + rewrite decide_False by tauto. by apply list_lookup_insert_ne.
  - rewrite decide_False by tauto. by rewrite list_lookup_insert_ne.
Qed.

Lemma in_shape_spec a i j :
  in_shape (shape a) i j = true <-> exists row, a !! i = Some row /\ j < length row.
Proof.
  unfold in_shape, shape. rewrite list_lookup_fmap.
  destruct (a !! i) as [row|]; simpl.
  - rewrite bool_decide_eq_true. split; [eauto|]. by intros (? & [= <-] & ?).
  - split; [done|]. by intros (? & ? & ?).
Qed.

Lemma set2_is_Some a i j x : in_shape (shape a) i j = true <-> is_Some (set2 a i j x).
Proof.
  rewrite in_shape_spec. split.
  - intros (row & Hrow & Hj). eexists. apply set2_Some. eauto.
  - intros [a' (row & Hrow & Hj & _)%set2_Some]. eauto.
Qed.

(** Two arrays of one shape with the same entries are the same array. *)
Lemma array_eq a b :
  shape a = shape b -> (forall i j, get2 a i j = get2 b i j) -> a = b.
Proof.
  intros Hsh Hget. apply list_eq. intros i.
  assert (Hlen : length <$> (a !! i) = length <$> (b !! i)).
  { rewrite <- !list_lookup_fmap. by fold (shape a); fold (shape b); rewrite Hsh. }
  specialize (Hget i). unfold get2 in Hget.
  destruct (a !! i) as [ra|], (b !! i) as [rb|]; simpl in *; try done.
  f_equal. apply list_eq. intros j. apply Hget.
Qed.

Lemma updated_none (val : nat -> nat -> option A) a :
  updated (fun _ _ => False) val a a.
Proof. split; [done|]. intros i j. split; [done|done]. Qed.

Lemma updated_set2 (val : nat -> nat -> option A) a i0 j0 x a' :
  set2 a i0 j0 x = Some a' -> val i0 j0 = Some x ->
  updated (fun i j => i = i0 /\ j = j0) val a a'.
Proof.
  intros Hset Hval. split; [by eapply shape_set2|].
  intros i j. rewrite (get2_set2 _ _ _ _ _ i j Hset). split.
  - intros [-> ->]. by rewrite decide_True.
  - intros Hn. by rewrite decide_False.
Qed.

Lemma updated_comp (V1 V2 : nat -> nat -> Prop) `{!forall i j, Decision (V2 i j)}
    (val : nat -> nat -> option A) a a1 a' :
  updated V1 val a a1 -> updated V2 val a1 a' ->
  updated (fun i j => V1 i j \/ V2 i j) val a a'.
Proof.
  intros [Hs1 H1] [Hs2 H2]. split; [congruence|].
  intros i j. destruct (H1 i j) as [H1v H1n], (H2 i j) as [H2v H2n].
  destruct (decide (V2 i j)) as [Hv2|Hv2].
  - split; [auto|]. intros Hn. tauto.
  - rewrite (H2n Hv2). split; [intros [?|?]; [auto|done]|]. intros Hn. apply H1n. tauto.
Qed.

Lemma updated_iff (V V' : nat -> nat -> Prop) (val : nat -> nat -> option A) a a' :
  (forall i j, V i j <-> V' i j) -> updated V val a a' -> updated V' val a a'.
Proof.
  intros HV [Hs Hu]. split; [done|]. intros i j. destruct (Hu i j) as [Hv Hn].
  split; intros ?; [apply Hv|apply Hn]; by rewrite HV.
Qed.

(** The visited set and the values decide the result. *)
Lemma updated_unique (V : nat -> nat -> Prop) `{!forall i j, Decision (V i j)}
    (val : nat -> nat -> option A) a a1 a2 :
  updated V val a a1 -> updated V val a a2 -> a1 = a2.
Proof.
  intros [Hs1 H1] [Hs2 H2]. apply array_eq; [congruence|].
  intros i j. destruct (H1 i j) as [H1v H1n], (H2 i j) as [H2v H2n].
  destruct (decide (V i j)) as [Hv|Hv].
  - by rewrite H1v, H2v.
  - by rewrite H1n, H2n.
Qed.

(** Updating twice is updating once. *)
Lemma updated_again (V : nat -> nat -> Prop) `{!forall i j, Decision (V i j)}
    (val : nat -> nat -> option A) a a1 a2 :
  updated V val a a1 -> updated V val a1 a2 -> a2 = a1.
Proof.
  intros [Hs1 H1] [Hs2 H2]. apply array_eq; [congruence|].
  intros i j. destruct (H1 i j) as [H1v H1n], (H2 i j) as [H2v H2n].
  destruct (decide (V i j)) as [Hv|Hv].
  - by rewrite H1v, H2v.
  - by rewrite H2n.
Qed.

Lemma slice_insert (a : list (list (list A))) (t : Z) (i : nat) (y : list (list A)) :
  py_index (length a) t = Some i -> slice (<[i := y]> a) t = Some y.
Proof.
  intros Hi. unfold slice. rewrite length_insert, Hi. simpl.
  apply list_lookup_insert_eq. by eapply py_index_lt.
Qed.

End ArrayFacts.

Section LoopFacts.
Context {S : Type}.

Lemma for_range_ext (f g : nat -> S -> option S) (l : list nat) (s : S) :
  (forall i s', i ∈ l -> f i s' = g i s') -> for_range f l s = for_range g l s.
Proof.
  revert s. induction l as [|i l IH]; intros s Hfg; [done|]. simpl.
  rewrite Hfg by constructor.
  destruct (g i s) as [s'|]; simpl; [|done].
  apply IH. intros. apply Hfg. by constructor.
Qed.

End LoopFacts.

Lemma forallb_perm {A} (f : A -> bool) (l l' : list A) :
  l ≡ₚ l' -> forallb f l = forallb f l'.
Proof.
  induction 1 as [|x l l' _ IH|x y l|l l' l'' _ IH1 _ IH2]; simpl.
  - done.
  - by rewrite IH.
  - by rewrite !andb_assoc, (andb_comm (f y)).
  - congruence.
Qed.

Lemma forallb_pointwise {A} (f g : A -> bool) (l : list A) :
  (forall x, f x = g x) -> forallb f l = forallb g l.
Proof. intros Hfg. induction l as [|x l IH]; simpl; [done|]. by rewrite Hfg, IH. Qed.

(** * The loops of [solve_bellman] *)

#[local] Arguments cell_step : simpl never.
#[local] Arguments row_step : simpl never.

Section KernelFacts.
Context {F U : Type} `{Scalar F} {K : Collaborators F U}.


Implicit Types (sol : Sol F) (par : Par F U) (c v : list (list F)) (ip im : nat).

(** One grid point: two stores, of [cell_c] and of [cell_v]. *)
Lemma cell_step_Some sol par ip im c v c' v' :
  cell_step sol par ip im (c, v) = Some (c', v') <->
  exists m w_ip, grid_m par !! im = Some m /\ sol_w sol !! ip = Some w_ip /\
    set2 c ip im (cell_c par w_ip m) = Some c' /\
    set2 v ip im (cell_v par w_ip m) = Some v'.
Proof.
  unfold cell_step. split.
  - intros Hs.
    destruct (grid_m par !! im) as [m|]; simpl in Hs; [|done].
    destruct (sol_w sol !! ip) as [w_ip|]; simpl in Hs; [|done].
    destruct (set2 c ip im _) as [c1|] eqn:Hc; simpl in Hs; [|done].
    rewrite (get2_set2 _ _ _ _ _ ip im Hc), decide_True in Hs by done. simpl in Hs.
    destruct (set2 v ip im _) as [v1|] eqn:Hv; simpl in Hs; [|done].
    injection Hs as <- <-. exists m, w_ip. eauto.
  - intros (m & w_ip & -> & -> & Hc & Hv). simpl.
    fold (bracket_low m). fold (cell_c par w_ip m). rewrite Hc. simpl.
    rewrite (get2_set2 _ _ _ _ _ ip im Hc), decide_True by done. simpl.
    fold (cell_v par w_ip m). by rewrite Hv.
Qed.

Lemma cell_step_is_Some sol par ip im c v :
  cell_ok sol par (shape c) (shape v) ip im = true <-> is_Some (cell_step sol par ip im (c, v)).
Proof.
  unfold cell_ok. rewrite !andb_true_iff, !bool_decide_eq_true. split.
  - intros [[[[m Hm] [w_ip Hw]] Hc] Hv].
    apply (set2_is_Some _ _ _ (cell_c par w_ip m)) in Hc as [c' Hc].
    apply (set2_is_Some _ _ _ (cell_v par w_ip m)) in Hv as [v' Hv].
    exists (c', v'). apply cell_step_Some. eauto 10.
  - intros [[c' v'] (m & w_ip & Hm & Hw & Hc & Hv)%cell_step_Some].
    repeat split; eauto; eapply set2_is_Some; eauto.
Qed.

Lemma cell_step_updated sol par ip im c v c' v' :
  cell_step sol par ip im (c, v) = Some (c', v') ->
  updated (fun i j => i = ip /\ j = im) (cell_at cell_c sol par) c c' /\
  updated (fun i j => i = ip /\ j = im) (cell_at cell_v sol par) v v'.
Proof.
  intros (m & w_ip & Hm & Hw & Hc & Hv)%cell_step_Some.
  split; eapply updated_set2; eauto; unfold cell_at; by rewrite Hm, Hw.
Qed.

(** The loop over [im]. *)
Lemma cells_loop sol par ip ims : forall c v c' v',
  for_range (cell_step sol par ip) ims (c, v) = Some (c', v') ->
  updated (fun i j => i = ip /\ j ∈ ims) (cell_at cell_c sol par) c c' /\
  updated (fun i j => i = ip /\ j ∈ ims) (cell_at cell_v sol par) v v'.
Proof.
  induction ims as [|im ims IH]; intros c v c' v' Hrun; simpl in Hrun.
  - injection Hrun as <- <-.
    split; (eapply updated_iff; [|apply updated_none]);
      intros i j; rewrite elem_of_nil; tauto.
  - destruct (cell_step sol par ip im (c, v)) as [[c1 v1]|] eqn:Hstep; simpl in Hrun; [|done].
    apply cell_step_updated in Hstep as [Hc1 Hv1].
    apply IH in Hrun as [Hc' Hv'].
    split; (eapply updated_iff; [|eapply updated_comp; [|eassumption|eassumption]]);
      try (intros i j; apply _);
      intros i j; rewrite elem_of_cons; tauto.
Qed.

Lemma cells_loop_is_Some sol par ip ims : forall c v,
  forallb (cell_ok sol par (shape c) (shape v) ip) ims = true <->
  is_Some (for_range (cell_step sol par ip) ims (c, v)).
Proof.
  induction ims as [|im ims IH]; intros c v; simpl.
  - split; [eauto|done].
  - rewrite andb_true_iff, cell_step_is_Some. split.
    + intros [[[c1 v1] Hstep] Hrest]. rewrite Hstep. simpl.
      pose proof Hstep as [[Hc _] [Hv _]]%cell_step_updated.
      apply IH. by rewrite Hc, Hv.
    + intros [cv Hrun].
      destruct (cell_step sol par ip im (c, v)) as [[c1 v1]|] eqn:Hstep; simpl in Hrun; [|done].
      split; [eauto|].
      pose proof Hstep as [[Hc _] [Hv _]]%cell_step_updated.
      rewrite <- Hc, <- Hv. apply IH. eauto.
Qed.

(** The loop over [ip]: the income level read at its head plays no part. *)
Lemma row_step_cells sol par ims ip cv :
  row_step sol par ims ip cv = for_range (cell_step sol par ip) ims cv.
Proof. reflexivity. Qed.

Lemma rows_loop sol par ims ips : forall c v c' v',
  for_range (row_step sol par ims) ips (c, v) = Some (c', v') ->
  updated (fun i j => i ∈ ips /\ j ∈ ims) (cell_at cell_c sol par) c c' /\
  updated (fun i j => i ∈ ips /\ j ∈ ims) (cell_at cell_v sol par) v v'.
Proof.
  induction ips as [|ip ips IH]; intros c v c' v' Hrun; simpl in Hrun.
  - injection Hrun as <- <-.
    split; (eapply updated_iff; [|apply updated_none]);
      intros i j; rewrite elem_of_nil; tauto.
  - destruct (row_step sol par ims ip (c, v)) as [[c1 v1]|] eqn:Hstep; simpl in Hrun; [|done].
    rewrite row_step_cells in Hstep. apply cells_loop in Hstep as [Hc1 Hv1].
    apply IH in Hrun as [Hc' Hv'].
    split; (eapply updated_iff; [|eapply updated_comp; [|eassumption|eassumption]]);
      try (intros i j; apply _);
      intros i j; rewrite elem_of_cons; intuition congruence.
Qed.

Lemma rows_loop_is_Some sol par ims ips : forall c v,
  forallb (row_ok sol par (shape c) (shape v) ims) ips = true <->
  is_Some (for_range (row_step sol par ims) ips (c, v)).
Proof.
  induction ips as [|ip ips IH]; intros c v; simpl.
  - split; [eauto|done].
  - unfold row_ok at 1. rewrite !andb_true_iff, cells_loop_is_Some, row_step_cells.
    split.
    + intros [[[c1 v1] Hrow] Hrest].
      rewrite Hrow. simpl.
      pose proof Hrow as [[Hc _] [Hv _]]%cells_loop.
      apply IH. by rewrite Hc, Hv.
    + intros [cv Hrun].
      destruct (for_range (cell_step sol par ip) ims (c, v)) as [[c1 v1]|] eqn:Hrow;
        simpl in Hrun; [|done].
      split; [eauto|].
      pose proof Hrow as [[Hc _] [Hv _]]%cells_loop.
      rewrite <- Hc, <- Hv. apply IH. eauto.
Qed.

(** The whole call. *)
Lemma sched_Some ips ims t sol par sol' :
  solve_bellman_sched ips ims t sol par = Some sol' <->
  exists it_v v it_c c c' v',
    py_index (length (sol_v sol)) t = Some it_v /\ sol_v sol !! it_v = Some v /\
    py_index (length (sol_c sol)) t = Some it_c /\ sol_c sol !! it_c = Some c /\
    for_range (row_step sol par ims) ips (c, v) = Some (c', v') /\
    sol' = mkSol (<[it_v := v']> (sol_v sol)) (<[it_c := c']> (sol_c sol)) (sol_w sol).
Proof.
  unfold solve_bellman_sched. split.
  - intros Hs.
    destruct (py_index (length (sol_v sol)) t) as [it_v|] eqn:Htv; simpl in Hs; [|done].
    destruct (sol_v sol !! it_v) as [v|] eqn:Hv; simpl in Hs; [|done].
    destruct (py_index (length (sol_c sol)) t) as [it_c|] eqn:Htc; simpl in Hs; [|done].
    destruct (sol_c sol !! it_c) as [c|] eqn:Hc; simpl in Hs; [|done].
    destruct (for_range _ ips (c, v)) as [[c' v']|] eqn:Hrun; simpl in Hs; [|done].
    injection Hs as <-. by exists it_v, v, it_c, c, c', v'.
  - intros (it_v & v & it_c & c & c' & v' & -> & Hv & -> & Hc & Hrun & ->). simpl.
    rewrite Hv. simpl. rewrite Hc. simpl. by rewrite Hrun.
Qed.

Lemma sched_is_Some ips ims t sol par :
  well_shaped_sched ips ims t sol par = true <-> is_Some (solve_bellman_sched ips ims t sol par).
Proof.
  unfold well_shaped_sched, solve_bellman_sched, slice.
  destruct (py_index (length (sol_v sol)) t) as [it_v|]; simpl; [|by split; [|intros []]].
  destruct (sol_v sol !! it_v) as [v|]; simpl; [|by split; [|intros []]].
  destruct (py_index (length (sol_c sol)) t) as [it_c|]; simpl; [|by split; [|intros []]].
  destruct (sol_c sol !! it_c) as [c|]; simpl; [|by split; [|intros []]].
  rewrite rows_loop_is_Some. split.
  - intros [[c' v'] ->]. simpl. eauto.
  - intros [sol' Hs]. destruct (for_range _ ips (c, v)); [eauto|done].
Qed.

(** What a completed call leaves behind: the visited cells hold what
    [cell_c] and [cell_v] compute, everything else is as before. *)
Lemma sched_spec ips ims t sol par sol' :
  solve_bellman_sched ips ims t sol par = Some sol' ->
  exists it_v v it_c c c' v',
    py_index (length (sol_v sol)) t = Some it_v /\ sol_v sol !! it_v = Some v /\
    py_index (length (sol_c sol)) t = Some it_c /\ sol_c sol !! it_c = Some c /\
    slice (sol_v sol') t = Some v' /\ slice (sol_c sol') t = Some c' /\
    updated (fun i j => i ∈ ips /\ j ∈ ims) (cell_at cell_c sol par) c c' /\
    updated (fun i j => i ∈ ips /\ j ∈ ims) (cell_at cell_v sol par) v v' /\
    sol' = mkSol (<[it_v := v']> (sol_v sol)) (<[it_c := c']> (sol_c sol)) (sol_w sol).
Proof.
  intros (it_v & v & it_c & c & c' & v' & Htv & Hv & Htc & Hc & Hrun & ->)%sched_Some.
  apply rows_loop in Hrun as [Hc' Hv'].
  exists it_v, v, it_c, c, c', v'. simpl.
  do 4 (split; [done|]). do 2 (split; [by apply slice_insert|]). done.
Qed.

(** Every visited grid point ends up holding its optimizer result and
    the value recomputed from it. *)
Lemma sched_cells ips ims t sol par sol' ip im :
  solve_bellman_sched ips ims t sol par = Some sol' -> ip ∈ ips -> im ∈ ims ->
  exists m w_ip, grid_m par !! im = Some m /\ sol_w sol !! ip = Some w_ip /\
    get3 (sol_c sol') t ip im = Some (cell_c par w_ip m) /\
    get3 (sol_v sol') t ip im = Some (cell_v par w_ip m).
Proof.
  intros Hs Hip Him.
  assert (Hok : well_shaped_sched ips ims t sol par = true) by (apply sched_is_Some; eauto).
  apply sched_spec in Hs
    as (it_v & v & it_c & c & c' & v' & Htv & Hv & Htc & Hc & Hsv & Hsc & [_ Hc'] & [_ Hv'] & ->).
  unfold well_shaped_sched, slice in Hok. rewrite Htv, Htc in Hok. simpl in Hok.
  rewrite Hv, Hc in Hok.
  rewrite forallb_forall in Hok. specialize (Hok ip). rewrite <- list_elem_of_In in Hok.
  specialize (Hok Hip). unfold row_ok in Hok.
  rewrite forallb_forall in Hok. specialize (Hok im). rewrite <- list_elem_of_In in Hok.
  specialize (Hok Him). unfold cell_ok in Hok.
  rewrite !andb_true_iff, !bool_decide_eq_true in Hok.
  destruct Hok as [[[[m Hm] [w_ip Hw]] _] _].
  exists m, w_ip. unfold get3. rewrite Hsc, Hsv. simpl.
  destruct (Hc' ip im) as [Hcc _], (Hv' ip im) as [Hvv _].
  rewrite Hcc, Hvv by done. unfold cell_at. by rewrite Hm, Hw.
Qed.

End KernelFacts.

(** * Properties of the kernel, for any scalar arithmetic *)

Section Claims.
Context {F U : Type} `{Scalar F} {K : Collaborators F U}.

Implicit Types (sol : Sol F) (par : Par F U) (ip im : nat) (t : Z).

Lemma solve_is_Some t sol par :
  well_shaped t sol par = true <-> is_Some (solve_bellman t sol par).
Proof. apply sched_is_Some. Qed.

(** C1.  The Bellman objective is the negated sum of the utility of [c]
    and the continuation value interpolated on [par.grid_a] at the
    end-of-period assets [m - c]. *)
Theorem obj_bellman_value (c m : F) (interp_w : list F) par :
  obj_bellman c m interp_w par =
  s_neg (s_add (utility_func c par) (interp_1d (grid_a par) interp_w (s_sub m c))).
Proof. reflexivity. Qed.

(** C2.  After [solve_bellman] returns, every value entry of the solved
    period is the negated objective at the stored consumption of the same
    grid point, at cash-on-hand [grid_m[im]] and continuation row [w[ip]]. *)
Theorem solve_bellman_value_roundtrip t sol par sol' ip im :
  solve_bellman t sol par = Some sol' ->
  (Z.of_nat ip < Np par)%Z -> (Z.of_nat im < Nm par)%Z ->
  exists c_ipim m w_ip,
    get3 (sol_c sol') t ip im = Some c_ipim /\
    grid_m par !! im = Some m /\
    sol_w sol' !! ip = Some w_ip /\
    get3 (sol_v sol') t ip im = Some (s_neg (obj_bellman c_ipim m w_ip par)).
Proof.
  intros Hs Hip%elem_of_range Him%elem_of_range.
  destruct (sched_cells _ _ _ _ _ _ ip im Hs Hip Him)
    as (m & w_ip & Hm & Hw & Hc & Hv).
  exists (cell_c par w_ip m), m, w_ip.
  apply sched_spec in Hs as (? & ? & ? & ? & ? & ? & _ & _ & _ & _ & _ & _ & _ & _ & ->).
  done.
Qed.

(** C5.  A call writes the time-[t] slices of [sol.c] and [sol.v] only:
    [sol.w] and every other slice of [sol.c] and [sol.v] are as before, and
    no array changes length.  ([par] is passed for reading; no store into
    it exists in the source, and the embedding returns the container only.) *)
Theorem solve_bellman_frame t sol par sol' :
  solve_bellman t sol par = Some sol' ->
  sol_w sol' = sol_w sol /\
  length (sol_c sol') = length (sol_c sol) /\
  length (sol_v sol') = length (sol_v sol) /\
  (forall k, py_index (length (sol_c sol)) t <> Some k -> sol_c sol' !! k = sol_c sol !! k) /\
  (forall k, py_index (length (sol_v sol)) t <> Some k -> sol_v sol' !! k = sol_v sol !! k).
Proof.
  intros (it_v & v & it_c & c & c' & v' & Htv & Hv & Htc & Hc & _ & ->)%sched_Some.
  simpl. rewrite !length_insert. repeat split.
  - intros k Hk. apply list_lookup_insert_ne. congruence.
  - intros k Hk. apply list_lookup_insert_ne. congruence.
Qed.

(** C6.  On the inputs of the kernel (every index it uses lies inside its
    array) the call completes, whatever the numbers the collaborators
    return: every grid point is computed, and holds the optimizer's answer
    and the value recomputed from it, finite or not. *)
Theorem solve_bellman_completes t sol par :
  well_shaped t sol par = true ->
  exists sol', solve_bellman t sol par = Some sol' /\
    forall ip im, (Z.of_nat ip < Np par)%Z -> (Z.of_nat im < Nm par)%Z ->
      exists m w_ip, grid_m par !! im = Some m /\ sol_w sol !! ip = Some w_ip /\
        get3 (sol_c sol') t ip im = Some (cell_c par w_ip m) /\
        get3 (sol_v sol') t ip im = Some (cell_v par w_ip m).
Proof.
  intros [sol' Hs]%solve_is_Some. exists sol'. split; [done|].
  intros ip im Hip%elem_of_range Him%elem_of_range.
  by eapply sched_cells.
Qed.

(** A second call on the container the first one left behind changes
    nothing. *)
Lemma solve_bellman_again t sol par s1 :
  solve_bellman t sol par = Some s1 -> solve_bellman t s1 par = Some s1.
Proof.
  intros Hs.
  assert (Hok : well_shaped t sol par = true) by (apply solve_is_Some; eauto).
  apply sched_spec in Hs
    as (it_v & v & it_c & c & c' & v' & Htv & Hv & Htc & Hc & Hsv & Hsc & Hc' & Hv' & ->).
  set (s1 := mkSol _ _ _) in *.
  assert (Hok1 : well_shaped t s1 par = true).
  { unfold well_shaped, well_shaped_sched in *. rewrite Hsv, Hsc.
    unfold slice in Hok. rewrite Htv, Htc in Hok. simpl in Hok. rewrite Hv, Hc in Hok.
    destruct Hc' as [-> _], Hv' as [-> _]. exact Hok. }
  apply solve_is_Some in Hok1 as [s2 Hs2]. rewrite Hs2. f_equal.
  apply sched_spec in Hs2
    as (it_v2 & v2 & it_c2 & c2 & c'' & v'' & Htv2 & Hv2 & Htc2 & Hc2 & _ & _ & Hc'' & Hv'' & ->).
  assert (Hlv : it_v < length (sol_v sol)) by by eapply py_index_lt.
  assert (Hlc : it_c < length (sol_c sol)) by by eapply py_index_lt.
  subst s1. simpl in *. rewrite length_insert in Htv2, Htc2.
  assert (it_v2 = it_v) as -> by congruence. assert (it_c2 = it_c) as -> by congruence.
  rewrite list_lookup_insert_eq in Hv2, Hc2 by done.
  injection Hv2 as <-. injection Hc2 as <-.
  assert (c'' = c') as -> by (eapply updated_again; [|exact Hc'|exact Hc'']; apply _).
  assert (v'' = v') as -> by (eapply updated_again; [|exact Hv'|exact Hv'']; apply _).
  by rewrite !list_insert_insert_eq.
Qed.

(** The order in which the two loops visit the grid does not matter. *)
Lemma sched_perm ips ips' ims ims' t sol par :
  ips ≡ₚ ips' -> ims ≡ₚ ims' ->
  solve_bellman_sched ips ims t sol par = solve_bellman_sched ips' ims' t sol par.
Proof.
  intros Hips Hims.
  assert (Hok : well_shaped_sched ips ims t sol par = well_shaped_sched ips' ims' t sol par).
  { unfold well_shaped_sched.
    destruct (slice (sol_v sol) t) as [v|]; [|done].
    destruct (slice (sol_c sol) t) as [c|]; [|done].
    rewrite (forallb_perm _ _ _ Hips). apply forallb_pointwise. intros ip.
    unfold row_ok. by apply forallb_perm. }
  destruct (solve_bellman_sched ips ims t sol par) as [s1|] eqn:H1,
           (solve_bellman_sched ips' ims' t sol par) as [s2|] eqn:H2; [|exfalso..|done].
  - apply sched_spec in H1
      as (it_v & v & it_c & c & c1 & v1 & Htv & Hv & Htc & Hc & _ & _ & Hc1 & Hv1 & ->).
    apply sched_spec in H2
      as (it_v2 & v2 & it_c2 & c2 & c2' & v2' & Htv2 & Hv2 & Htc2 & Hc2 & _ & _ & Hc2' & Hv2' & ->).
    assert (it_v2 = it_v) as -> by congruence. assert (it_c2 = it_c) as -> by congruence.
    assert (v2 = v) as -> by congruence. assert (c2 = c) as -> by congruence.
    assert (HV : forall i j, i ∈ ips' /\ j ∈ ims' <-> i ∈ ips /\ j ∈ ims)
      by (intros i j; by rewrite Hips, Hims).
    apply (updated_iff _ _ _ _ _ HV) in Hc2', Hv2'.
    assert (c2' = c1) as -> by (eapply updated_unique; [|exact Hc2'|exact Hc1]; apply _).
    assert (v2' = v1) as -> by (eapply updated_unique; [|exact Hv2'|exact Hv1]; apply _).
    done.
  - assert (is_Some (solve_bellman_sched ips' ims' t sol par)) as [? ?]; [|congruence].
    apply sched_is_Some. rewrite <- Hok.
    apply sched_is_Some. eauto.
  - assert (is_Some (solve_bellman_sched ips ims t sol par)) as [? ?]; [|congruence].
    apply sched_is_Some. rewrite Hok.
    apply sched_is_Some. eauto.
Qed.

(** The objective seen by the optimizer is fixed by the grid point's own
    inputs. *)
Lemma cell_c_inputs par1 par2 (w_ip : list F) (m : F) :
  tol par1 = tol par2 -> grid_a par1 = grid_a par2 ->
  (forall c, utility_func c par1 = utility_func c par2) ->
  cell_c par1 w_ip m = cell_c par2 w_ip m.
Proof.
  intros Htol Hga Hu. unfold cell_c, opt_bellman. rewrite Htol. f_equal.
  apply functional_extensionality. intros c. unfold obj_bellman. by rewrite Hga, Hu.
Qed.

Lemma cell_v_inputs par1 par2 (w_ip : list F) (m : F) :
  tol par1 = tol par2 -> grid_a par1 = grid_a par2 ->
  (forall c, utility_func c par1 = utility_func c par2) ->
  cell_v par1 w_ip m = cell_v par2 w_ip m.
Proof.
  intros Htol Hga Hu. unfold cell_v.
  rewrite (cell_c_inputs par1 par2) by done. unfold obj_bellman. by rewrite Hga, Hu.
Qed.

(** C8.  A cell of the solved period is a function of [grid_m[im]],
    [w[ip]], [tol], [grid_a] and the utility alone: any other completed
    call that agrees on these writes the same two numbers there, whatever
    its other cells, grids, sizes or period; and the loops may visit the
    grid in any order without changing the outcome. *)
Theorem solve_bellman_cell_independent t sol par sol' ip im :
  solve_bellman t sol par = Some sol' ->
  (Z.of_nat ip < Np par)%Z -> (Z.of_nat im < Nm par)%Z ->
  (forall ips ims, ips ≡ₚ range (Np par) -> ims ≡ₚ range (Nm par) ->
     solve_bellman_sched ips ims t sol par = Some sol') /\
  (forall t2 sol2 par2 sol2',
     solve_bellman t2 sol2 par2 = Some sol2' ->
     (Z.of_nat ip < Np par2)%Z -> (Z.of_nat im < Nm par2)%Z ->
     grid_m par2 !! im = grid_m par !! im ->
     sol_w sol2 !! ip = sol_w sol !! ip ->
     tol par2 = tol par -> grid_a par2 = grid_a par ->
     (forall c, utility_func c par2 = utility_func c par) ->
     get3 (sol_c sol2') t2 ip im = get3 (sol_c sol') t ip im /\
     get3 (sol_v sol2') t2 ip im = get3 (sol_v sol') t ip im).
Proof.
  intros Hs Hip%elem_of_range Him%elem_of_range. split.
  - intros ips ims Hips Hims. rewrite <- Hs. by apply sched_perm.
  - intros t2 sol2 par2 sol2' Hs2 Hip2%elem_of_range Him2%elem_of_range Hgm Hw Htol Hga Hu.
    destruct (sched_cells _ _ _ _ _ _ ip im Hs Hip Him)
      as (m & w_ip & Hm & Hwip & -> & ->).
    destruct (sched_cells _ _ _ _ _ _ ip im Hs2 Hip2 Him2)
      as (m2 & w_ip2 & Hm2 & Hwip2 & -> & ->).
    assert (m2 = m) as -> by congruence. assert (w_ip2 = w_ip) as -> by congruence.
    by rewrite (cell_c_inputs par2 par), (cell_v_inputs par2 par).
Qed.

Lemma obj_bellman_set_grid_p par (gp : list F) :
  (forall c par' gp', utility_func c (set_grid_p par' gp') = utility_func c par') ->
  (fun c m w_ip => obj_bellman c m w_ip (set_grid_p par gp)) =
  (fun c m w_ip => obj_bellman c m w_ip par).
Proof.
  intros Hu. do 3 (apply functional_extensionality; intros ?).
  unfold obj_bellman. by rewrite Hu.
Qed.

(** C10.  The entries of [grid_p] do not reach the output: replacing
    [grid_p] by any array of the same length leaves the outcome of the call
    unchanged, provided the utility function does not read [grid_p]. *)
Theorem solve_bellman_ignores_grid_p t sol par (gp : list F) :
  (forall c par' gp', utility_func c (set_grid_p par' gp') = utility_func c par') ->
  length gp = length (grid_p par) ->
  solve_bellman t sol (set_grid_p par gp) = solve_bellman t sol par.
Proof.
  intros Hu Hlen. unfold solve_bellman, solve_bellman_sched. simpl.
  destruct (py_index (length (sol_v sol)) t) as [it_v|]; simpl; [|done].
  destruct (sol_v sol !! it_v) as [v|]; simpl; [|done].
  destruct (py_index (length (sol_c sol)) t) as [it_c|]; simpl; [|done].
  destruct (sol_c sol !! it_c) as [c|]; simpl; [|done].
  f_equal. apply for_range_ext. intros ip [c1 v1] _.
  rewrite !row_step_cells.
  apply for_range_ext. intros im [c2 v2] _.
  pose proof (obj_bellman_set_grid_p par gp Hu) as Hobj.
  unfold cell_step, opt_bellman. simpl.
  destruct (grid_m par !! im) as [m|]; simpl; [|done].
  destruct (sol_w sol !! ip) as [w_ip|]; simpl; [|done].
  replace (fun c0 => obj_bellman c0 m w_ip (set_grid_p par gp))
    with (fun c0 => obj_bellman c0 m w_ip par)
    by (apply functional_extensionality; intros c0;
        by rewrite <- (equal_f (equal_f (equal_f Hobj c0) m) w_ip)).
  destruct (set2 c2 ip im _) as [c3|]; simpl; [|done].
  destruct (get2 c3 ip im) as [cr|]; simpl; [|done].
  by rewrite <- (equal_f (equal_f (equal_f Hobj cr) m) w_ip).
Qed.

(** C7.  The call is a function of its inputs, and keeps no state: run on
    the same inputs it yields the same container, and run once more on the
    container it has just filled it reproduces [c[t]] and [v[t]] exactly. *)
Theorem solve_bellman_deterministic t sol par s1 :
  solve_bellman t sol par = Some s1 ->
  (forall s2, solve_bellman t sol par = Some s2 ->
     slice (sol_c s2) t = slice (sol_c s1) t /\ slice (sol_v s2) t = slice (sol_v s1) t) /\
  solve_bellman t s1 par = Some s1.
Proof.
  intros Hs. split.
  - intros s2 Hs2. by assert (s2 = s1) as -> by congruence.
  - by eapply solve_bellman_again.
Qed.

End Claims.

(** * Halving a binary64 number *)

Module SpecFloatFacts.
Local Open Scope Z_scope.

Lemma div_eucl_unique (a b q r : Z) :
  a = b * q + r -> 0 <= r < b -> Z.div_eucl a b = (q, r).
Proof.
  intros Ha Hr. pose proof (Z_div_mod a b ltac:(lia)) as Hd.
  destruct (Z.div_eucl a b) as [q' r']. destruct Hd as [Hd Hr'].
  destruct (Z.div_mod_unique b q' q r' r) as [-> ->]; [lia|lia|lia|reflexivity].
Qed.

(** The quotient, the exponent and the position of the remainder when the
    divisor is [2 = 2^52 * 2^-51]. *)
Lemma core_two (mx : positive) (ex e' s q r : Z) :
  e' = Z.min (Z.max (Z.pos (digits2_pos mx) + ex - 55) (-1074)) (ex + 51) ->
  s = ex + 51 - e' -> 0 < s ->
  Z.pos mx * 2 ^ s = 4503599627370496 * q + r -> 0 <= r < 4503599627370496 ->
  SFdiv_core_binary prec emax (Z.pos mx) ex 4503599627370496 (-51) =
  (q, e', new_location 4503599627370496 r).
Proof.
  intros He Hs Hpos Hdiv Hr. unfold SFdiv_core_binary.
  change (Zdigits2 (Z.pos mx)) with (Z.pos (digits2_pos mx)).
  change (Zdigits2 4503599627370496) with 53.
  unfold fexp, SpecFloat.emin, prec, emax.
  set (E := IntDef.Z.min _ _).
  assert (E = e') as -> by (subst E; lia).
  replace (ex - -51 - e') with s by lia.
  destruct s as [|ps|ps] eqn:Es; [lia| |lia].
  rewrite Z.shiftl_mul_pow2 by lia.
  by rewrite (div_eucl_unique _ _ q r).
Qed.

Lemma shr_fexp_noshift (m e : Z) (l : location) :
  Z.max (Zdigits2 m + e - 53) (-1074) <= e ->
  shr_fexp prec emax m e l = (shr_record_of_loc m l, e).
Proof.
  intros Hle. unfold shr_fexp, shr, fexp, SpecFloat.emin, prec, emax.
  destruct (_ - e) eqn:E; try reflexivity. lia.
Qed.

Lemma shr_fexp_one (p : positive) (e : Z) :
  Z.max (Z.pos (digits2_pos p~0) + e - 53) (-1074) = e + 1 ->
  shr_fexp prec emax (Z.pos p~0) e loc_Exact =
  ({| shr_m := Z.pos p; shr_r := false; shr_s := false |}, e + 1).
Proof.
  intros He. unfold shr_fexp, fexp, SpecFloat.emin, prec, emax.
  change (Zdigits2 (Z.pos p~0)) with (Z.pos (digits2_pos p~0)).
  replace (IntDef.Z.max _ _ - e) with 1 by lia. reflexivity.
Qed.

Lemma loc_of_shr_record_of_loc (m : Z) (l : location) :
  loc_of_shr_record (shr_record_of_loc m l) = l.
Proof. by destruct l as [|[]]. Qed.

Lemma digits2_pos_succ (p : positive) :
  (digits2_pos (Pos.succ p) <= Pos.succ (digits2_pos p))%positive.
Proof. induction p; simpl; lia. Qed.

(** Rounding a mantissa that is short enough to need no shift: it stays,
    or moves up by one. *)
Lemma binary_round_aux_noshift (p : positive) (e : Z) (l : location) :
  Z.pos (digits2_pos p) <= 52 \/ (Z.pos (digits2_pos p) <= 53 /\ l = loc_Exact) ->
  -1074 <= e <= 971 ->
  exists m', binary_round_aux prec emax false (Z.pos p) e l = S754_finite false m' e /\
    (m' = p \/ (m' = Pos.succ p /\ l <> loc_Exact)).
Proof.
  intros Hd He. unfold binary_round_aux.
  rewrite shr_fexp_noshift by (simpl Zdigits2; lia).
  rewrite loc_of_shr_record_of_loc.
  assert (exists p', round_nearest_even (shr_m (shr_record_of_loc (Z.pos p) l)) l = Z.pos p'
            /\ (p' = p \/ (p' = Pos.succ p /\ l <> loc_Exact))) as (p' & -> & Hp').
  { replace (shr_m (shr_record_of_loc (Z.pos p) l)) with (Z.pos p) by by destruct l as [|[]].
    unfold round_nearest_even. destruct l as [|[]]; eauto.
    - destruct (IntDef.Z.even _); eauto. exists (Pos.succ p). split; [simpl; f_equal; lia|auto].
    - exists (Pos.succ p). split; [simpl; f_equal; lia|auto]. }
  rewrite shr_fexp_noshift.
  - simpl. replace (e <=? emax - prec) with true
      by (symmetry; apply Z.leb_le; unfold emax, prec; lia).
    eauto.
  - simpl Zdigits2. pose proof (digits2_pos_succ p).
    destruct Hp' as [-> | [-> Hl]]; [lia|]. destruct Hd as [Hd | [_ Hd]]; [lia|done].
Qed.

(** A positive double other than [2^-1074], divided by two, is a smaller
    positive double. *)
Lemma SFdiv_two_finite (mx : positive) (ex : Z) :
  bounded prec emax mx ex = true -> (mx = 1%positive -> ex <> -1074) ->
  exists m' e',
    SF64div (S754_finite false mx ex) (S754_finite false 4503599627370496 (-51))
    = S754_finite false m' e' /\
    (e' < ex \/ (e' = ex /\ (m' < mx)%positive)).
Proof.
  unfold bounded, canonical_mantissa, fexp, SpecFloat.emin, prec, emax.
  intros [Hc Hb]%andb_prop Hne.
  apply Z.eqb_eq in Hc. apply Z.leb_le in Hb.
  unfold SF64div, SFdiv.
  destruct (Z_le_gt_dec ex (-1074)) as [Hex|Hex].
  - (* the lowest exponent: the last bit of the mantissa is rounded away *)
    assert (ex = -1074) as -> by lia.
    destruct mx as [p|p|]; [| |by destruct Hne].
    + rewrite (core_two _ _ (-1074) 51 (Z.pos p) 2251799813685248); simpl in *; try lia.
      simpl xorb. change (new_location _ _) with (loc_Inexact Eq).
      destruct (binary_round_aux_noshift p (-1074) (loc_Inexact Eq)) as (m' & -> & Hm');
        [lia|lia|].
      exists m', (-1074). split; [done|]. right. split; [done|]. lia.
    + rewrite (core_two _ _ (-1074) 51 (Z.pos p) 0); simpl in *; try lia.
      simpl xorb. change (new_location _ _) with loc_Exact.
      destruct (binary_round_aux_noshift p (-1074) loc_Exact) as (m' & -> & Hm');
        [lia|lia|].
      exists m', (-1074). split; [done|]. right. split; [done|].
      destruct Hm' as [-> | [_ Hl]]; [lia|done].
  - assert (Hd : Z.pos (digits2_pos mx) = 53) by lia.
    destruct (Z_le_gt_dec ex (-1073)) as [Hex'|Hex'].
    + (* the result is subnormal, and exact *)
      assert (ex = -1073) as -> by lia.
      rewrite (core_two _ _ (-1074) 52 (Z.pos mx) 0); try lia.
      simpl xorb. change (new_location _ _) with loc_Exact.
      destruct (binary_round_aux_noshift mx (-1074) loc_Exact) as (m' & -> & _);
        [right; split; [lia|done]|lia|].
      exists m', (-1074). split; [done|]. left. lia.
    + (* the exponent drops by one *)
      rewrite (core_two _ _ (ex - 2) 53 (Z.pos mx~0) 0); try lia.
      simpl xorb. change (new_location _ _) with loc_Exact.
      unfold binary_round_aux.
      rewrite shr_fexp_one by (simpl digits2_pos; lia).
      simpl shr_m. simpl loc_of_shr_record. simpl round_nearest_even.
      rewrite shr_fexp_noshift by (simpl Zdigits2; lia).
      simpl. replace (ex - 2 + 1 <=? emax - prec) with true
        by (symmetry; apply Z.leb_le; unfold emax, prec; lia).
      exists mx, (ex - 2 + 1). split; [done|]. left. lia.
Qed.

End SpecFloatFacts.

(** * Properties that depend on binary64 arithmetic *)

Module Float64Facts.
Import Float64.
Local Open Scope float_scope.

Lemma zero_SF : Prim2SF 0 = S754_zero false.
Proof. reflexivity. Qed.

(** The order of binary64, read off the comparison of sign, exponent and
    mantissa. *)
Ltac compare_cases :=
  repeat match goal with
  | H : context [Pos.compare_cont Eq ?a ?b] |- _ =>
      rewrite (Pos.compare_cont_spec a b Eq) in H
  | |- context [Pos.compare_cont Eq ?a ?b] =>
      rewrite (Pos.compare_cont_spec a b Eq)
  end;
  unfold Pos.switch_Eq in *;
  repeat match goal with
  | H : context [(?a ?= ?b)%Z] |- _ =>
      destruct (Z.compare_spec a b); simpl in H; try done; try lia
  | |- context [(?a ?= ?b)%Z] =>
      destruct (Z.compare_spec a b); simpl; try done; try lia
  | H : context [(?a ?= ?b)%positive] |- _ =>
      destruct (Pos.compare_spec a b); simpl in H; try done; try lia
  | |- context [(?a ?= ?b)%positive] =>
      destruct (Pos.compare_spec a b); simpl; try done; try lia
  end.

Ltac float_order :=
  rewrite ?ltb_spec, ?leb_spec, ?FloatAxioms.eqb_spec, ?opp_spec in *;
  unfold SFltb, SFleb, SFeqb, SFopp in *;
  repeat match goal with
  | |- context [Prim2SF ?x] => is_var x; destruct (Prim2SF x) as [[]|[]| |[] ? ?]
  | H : context [Prim2SF ?x] |- _ => is_var x; destruct (Prim2SF x) as [[]|[]| |[] ? ?]
  end;
  simpl in *; try done; compare_cases.



Lemma leb_ltb_trans (x y z : float) :
  (x <=? y) = true -> (y <? z) = true -> (x <? z) = true.
Proof. intros Hxy Hyz. float_order. Qed.




Lemma ltb_not_eqb (x y : float) : (x <? y) = true -> (x =? y) = false.
Proof. intros Hxy. float_order. Qed.

Lemma ltb_eqb_leb (x y z : float) :
  (x <? y) = true -> (z =? y) = true -> (x <=? z) = true.
Proof. intros Hxy Hzy. float_order. Qed.

Lemma pos_not_zero (x : float) : (0 <? x) = true -> (x =? 0) = false.
Proof.
  rewrite ltb_spec, FloatAxioms.eqb_spec, zero_SF. unfold SFltb, SFeqb.
  by destruct (Prim2SF x) as [[]|[]| |[] ? ?].
Qed.




(** Halving a positive double gives a smaller positive double, except for
    the smallest one, [2^-1074], whose half rounds to zero, and for
    infinity. *)
Lemma half_pos_cases (m : float) :
  (0 <? m) = true ->
  ((0 <? m / 2) = true /\ ((m / 2 <? m) = true \/ m = infinity)) \/ m = 0x1p-1074.
Proof.
  intros Hm. rewrite !ltb_spec in *. rewrite div_spec.
  pose proof (Prim2SF_valid m) as Hv.
  change (Prim2SF 0) with (S754_zero false) in *.
  change (Prim2SF 2) with (S754_finite false 4503599627370496 (-51)).
  destruct (Prim2SF m) as [s|s| |s mx ex] eqn:Em; try done.
  - destruct s; [done|]. left. split; [done|]. right.
    apply Prim2SF_inj. by rewrite Em.
  - destruct s; [done|]. simpl in Hv.
    destruct (decide (mx = 1%positive /\ ex = (-1074)%Z)) as [[-> ->]|Hne].
    + right. apply Prim2SF_inj. by rewrite Em.
    + left. destruct (SpecFloatFacts.SFdiv_two_finite mx ex Hv) as (m' & e' & -> & Hlt).
      { intros -> ->. by apply Hne. }
      split; [done|]. left. unfold SFltb. simpl.
      destruct Hlt as [Hlt | [-> Hlt]].
      * by rewrite (proj2 (Z.compare_lt_iff e' ex) Hlt).
      * rewrite Z.compare_refl, Pos.compare_cont_spec.
        by rewrite (proj2 (Pos.compare_lt_iff m' mx) Hlt).
Qed.

(** A number above a positive number is positive. *)
Lemma ltb_leb_pos (a b : float) : (0 <? a) = true -> (a <=? b) = true -> (0 <? b) = true.
Proof.
  rewrite !ltb_spec, leb_spec, zero_SF. unfold SFltb, SFleb.
  destruct (Prim2SF a) as [sa|sa| |sa ma ea], (Prim2SF b) as [sb|sb| |sb mb eb];
    simpl; try done; try (by destruct sa); try (by destruct sa, sb).
Qed.

Lemma ltb_not_leb (x y : float) : (y <? x) = true -> (x <=? y) = false.
Proof.
  rewrite ltb_spec, leb_spec. unfold SFltb, SFleb.
  destruct (Prim2SF x) as [sx|sx| |sx mx ex], (Prim2SF y) as [sy|sy| |sy my ey];
    simpl; try done; try (by destruct sx); try (by destruct sy); try (by destruct sx, sy).
  destruct sx, sy; try done; rewrite (Z.compare_antisym ex ey);
    destruct (ex ?= ey)%Z; simpl; try done;
    rewrite !Pos.compare_cont_spec, (Pos.compare_antisym mx my); simpl;
    by destruct (mx ?= my)%positive.
Qed.

Lemma fmin_cases (x y : float) : fmin x y = x \/ fmin x y = y.
Proof. unfold fmin. destruct (_ || _); auto. Qed.

(** [c_low] is [1e-8] as soon as [m / 2] exceeds it. *)
Lemma bracket_low_collapses (m : float) :
  (eps <? m / 2) = true -> bracket_low m = eps.
Proof.
  intros Hlt. unfold bracket_low. simpl. unfold fmin.
  by rewrite (ltb_not_leb _ _ Hlt).
Qed.

Lemma bracket_low_pos (m : float) : (0 <? m / 2) = true -> (0 <? bracket_low m) = true.
Proof.
  intros Hm. unfold bracket_low. simpl.
  destruct (fmin_cases (m / 2) eps) as [-> | ->]; [done|reflexivity].
Qed.

Section Claims.
Context {U : Type} {K : Collaborators float U}.

(** C3.  At every grid point the optimizer is run on the Bellman
    objective for [m = grid_m[im]] and [w[ip]], over the bracket from
    [c_low = fmin(m/2, 1e-8)] to [c_high = m], with tolerance [par.tol],
    and its answer is what [c[t][ip, im]] holds afterwards; [c_low] is
    [1e-8] whenever [m/2 > 1e-8]. *)
Theorem solve_bellman_bracket t sol par sol' ip im :
  solve_bellman t sol par = Some sol' ->
  (Z.of_nat ip < Np par)%Z -> (Z.of_nat im < Nm par)%Z ->
  exists m w_ip, grid_m par !! im = Some m /\ sol_w sol !! ip = Some w_ip /\
    let c_low := fmin (m / 2) eps in
    let c_high := m in
    get3 (sol_c sol') t ip im =
      Some (golden_section_search (fun c => obj_bellman c m w_ip par)
              c_low c_high (tol par)) /\
    ((eps <? m / 2) = true -> c_low = eps).
Proof.
  intros Hs Hip%elem_of_range Him%elem_of_range.
  destruct (sched_cells _ _ _ _ _ _ ip im Hs Hip Him)
    as (m & w_ip & Hm & Hw & Hc & _).
  exists m, w_ip. split; [done|]. split; [done|]. split; [exact Hc|].
  apply bracket_low_collapses.
Qed.

(** C4.  If every cash-on-hand level is strictly positive and the
    optimizer answers inside its bracket at every grid point, then every
    stored consumption satisfies [c <= m], and [0 < c] as well unless the
    bracket is degenerate (its lower end is zero, or meets its upper end). *)
Theorem consumption_bounds t sol par sol' :
  (forall im m, grid_m par !! im = Some m -> (0 <? m) = true) ->
  (forall ip im m w_ip, grid_m par !! im = Some m -> sol_w sol !! ip = Some w_ip ->
     in_bracket (bracket_low m) m (cell_c par w_ip m) = true) ->
  solve_bellman t sol par = Some sol' ->
  forall ip im, (Z.of_nat ip < Np par)%Z -> (Z.of_nat im < Nm par)%Z ->
    exists c m, get3 (sol_c sol') t ip im = Some c /\ grid_m par !! im = Some m /\
      (c <=? m) = true /\
      (degenerate_bracket (bracket_low m) m = false -> (0 <? c) = true).
Proof.
  intros Hgrid Hopt Hs ip im Hip%elem_of_range Him%elem_of_range.
  destruct (sched_cells _ _ _ _ _ _ ip im Hs Hip Him)
    as (m & w_ip & Hm & Hw & Hc & _).
  exists (cell_c par w_ip m), m.
  split; [done|]. split; [done|].
  specialize (Hopt ip im m w_ip Hm Hw). unfold in_bracket in Hopt.
  apply andb_true_iff in Hopt as [Hlo Hhi]. split; [done|].
  intros Hdeg. eapply ltb_leb_pos; [|exact Hlo].
  destruct (half_pos_cases m (Hgrid im m Hm)) as [[Hhalf _] | ->].
  - by apply bracket_low_pos.
  - vm_compute in Hdeg. discriminate.
Qed.

(** The degenerate brackets of C4: among the strictly positive
    cash-on-hand levels, the bracket is degenerate for the smallest positive
    double, where it is [0, 2^-1074], and for no other. *)
Lemma degenerate_bracket_iff (m : float) :
  (0 <? m) = true -> degenerate_bracket (bracket_low m) m = true <-> m = 0x1p-1074.
Proof.
  intros Hm. split; [|by intros ->].
  intros Hd. destruct (half_pos_cases m Hm) as [[Hhalf Hlt] | ->]; [exfalso|done].
  apply orb_true_iff in Hd as [Heq | Hz].
  - unfold bracket_low in Heq. simpl in Heq. unfold fmin in Heq.
    destruct (m / 2 <=? eps) eqn:Hle; simpl in Heq.
    + destruct Hlt as [Hlt | ->].
      * by rewrite (ltb_not_eqb _ _ Hlt) in Heq.
      * vm_compute in Hle. discriminate.
    + destruct Hlt as [Hlt | ->].
      * by rewrite (ltb_eqb_leb _ _ _ Hlt Heq) in Hle.
      * vm_compute in Heq. discriminate.
  - apply bracket_low_pos in Hhalf.
    by rewrite (pos_not_zero _ Hhalf) in Hz.
Qed.


End Claims.

End Float64Facts.

(** * The kernel at work *)

Section Float64Runs.
Import Float64 Float64Run.
Local Open Scope float_scope.

(** The run of the three-level grid: the optimizer settles near [c = 1/2]
    at every level, and the value is [4 m - 4]. *)
Example solve_sol0 : solve 0 sol0 par0 = Some sol0_solved.
Proof. vm_compute. reflexivity. Qed.

(** [t = -1] addresses the last period. *)
Example solve_last_period :
  slice (sol_c (default sol0 (solve (-1) sol0 par0))) 1 = slice (sol_c sol0_solved) 0.
Proof. vm_compute. reflexivity. Qed.

(** A utility that is not a number: the call completes, the values stored
    are NaN, in every cell. *)
Example nan_is_stored :
  slice (sol_v (default sol0 (solve_bellman (K := kit_broken) 0 sol0 par0))) 0
  = Some [[nan; nan; nan]].
Proof. vm_compute. reflexivity. Qed.

(** Halving the smallest positive double gives zero; halving the next one
    does not. *)
Example half_of_smallest :
  (0 <? 0x1p-1074) = true /\ (0 <? 0x1p-1074 / 2) = false /\ (0 <? 0x1p-1073 / 2) = true.
Proof. repeat split; reflexivity. Qed.

(** On the smallest positive double the bracket is [0, m], a degenerate
    one; the golden-section search and the optimizer that returns its lower
    bound both store a zero consumption. *)
Example zero_consumption_stored :
  bracket_low 0x1p-1074 = 0 /\
  degenerate_bracket (bracket_low 0x1p-1074) 0x1p-1074 = true /\
  get3 (sol_c sol_tiny_solved) 0 0 0 = Some 0 /\
  get3 (sol_c (default sol_tiny (solve_bellman (K := kit_lower_end) 0 sol_tiny par_tiny)))
    0 0 0 = Some 0.
Proof. repeat split; vm_compute; reflexivity. Qed.

Lemma solve_bellman_value_roundtrip_witness :
  exists c_ipim m w_ip,
    get3 (sol_c sol0_solved) 0 0 1 = Some c_ipim /\
    grid_m par0 !! 1%nat = Some m /\
    sol_w sol0_solved !! 0%nat = Some w_ip /\
    get3 (sol_v sol0_solved) 0 0 1 =
      Some (s_neg (obj_bellman (K := kit) c_ipim m w_ip par0)).
Proof.
  apply (solve_bellman_value_roundtrip (K := kit) 0 sol0 par0 sol0_solved 0 1).
  - vm_compute. reflexivity.
  - reflexivity.
  - reflexivity.
Defined.

Lemma solve_bellman_frame_witness :
  sol_w sol0_solved = sol_w sol0 /\
  length (sol_c sol0_solved) = length (sol_c sol0) /\
  length (sol_v sol0_solved) = length (sol_v sol0) /\
  (forall k, py_index (length (sol_c sol0)) 0 <> Some k ->
     sol_c sol0_solved !! k = sol_c sol0 !! k) /\
  (forall k, py_index (length (sol_v sol0)) 0 <> Some k ->
     sol_v sol0_solved !! k = sol_v sol0 !! k).
Proof.
  apply (solve_bellman_frame (K := kit) 0 sol0 par0 sol0_solved).
  vm_compute. reflexivity.
Defined.

Lemma solve_bellman_completes_witness :
  exists sol', solve_bellman (K := kit) 0 sol0 par0 = Some sol' /\
    forall ip im, (Z.of_nat ip < 1)%Z -> (Z.of_nat im < 3)%Z ->
      exists m w_ip, grid_m par0 !! im = Some m /\ sol_w sol0 !! ip = Some w_ip /\
        get3 (sol_c sol') 0 ip im = Some (cell_c (K := kit) par0 w_ip m) /\
        get3 (sol_v sol') 0 ip im = Some (cell_v (K := kit) par0 w_ip m).
Proof.
  apply (solve_bellman_completes (K := kit) 0 sol0 par0).
  vm_compute. reflexivity.
Defined.

Lemma solve_bellman_deterministic_witness :
  (forall s2, solve_bellman (K := kit) 0 sol0 par0 = Some s2 ->
     slice (sol_c s2) 0 = slice (sol_c sol0_solved) 0 /\
     slice (sol_v s2) 0 = slice (sol_v sol0_solved) 0) /\
  solve_bellman (K := kit) 0 sol0_solved par0 = Some sol0_solved.
Proof.
  apply (solve_bellman_deterministic (K := kit) 0 sol0 par0 sol0_solved).
  vm_compute. reflexivity.
Defined.

(** The inner loop run in the order 2, 0, 1; and the same cell written by
    a call that addresses the period as [t = -2] and has another [grid_p]. *)
Lemma solve_bellman_cell_independent_witness :
  solve_bellman_sched (K := kit) [0%nat] [2%nat; 0%nat; 1%nat] 0 sol0 par0
  = Some sol0_solved /\
  get3 (sol_c sol0_solved) (-2) 0 1 = get3 (sol_c sol0_solved) 0 0 1.
Proof.
  destruct (solve_bellman_cell_independent (K := kit) 0 sol0 par0 sol0_solved 0 1)
    as [Horder Hcell].
  - vm_compute. reflexivity.
  - reflexivity.
  - reflexivity.
  - split.
    + apply Horder.
      * reflexivity.
      * change (range (Nm par0)) with [0%nat; 1%nat; 2%nat].
        apply perm_trans with [0%nat; 2%nat; 1%nat]; [apply perm_swap|].
        apply perm_skip, perm_swap.
    + apply (Hcell (-2)%Z sol0 (set_grid_p par0 [3]) sol0_solved); reflexivity.
Defined.

Lemma solve_bellman_ignores_grid_p_witness :
  solve_bellman (K := kit) 0 sol0 (set_grid_p par0 [7])
  = solve_bellman (K := kit) 0 sol0 par0.
Proof.
  apply (solve_bellman_ignores_grid_p (K := kit) 0 sol0 par0 [7]).
  - reflexivity.
  - reflexivity.
Defined.

Lemma solve_bellman_bracket_witness :
  exists m w_ip,
    grid_m par0 !! 1%nat = Some m /\ sol_w sol0 !! 0%nat = Some w_ip /\
    let c_low := fmin (m / 2) eps in
    let c_high := m in
    get3 (sol_c sol0_solved) 0 0 1 =
      Some (golden (fun c => obj_bellman (K := kit) c m w_ip par0)
              c_low c_high (tol par0)) /\
    ((eps <? m / 2) = true -> c_low = eps).
Proof.
  apply (Float64Facts.solve_bellman_bracket (K := kit) 0 sol0 par0 sol0_solved 0 1).
  - vm_compute. reflexivity.
  - reflexivity.
  - reflexivity.
Defined.

Lemma consumption_bounds_witness :
  exists c, get3 (sol_c sol0_solved) 0 0 2 = Some c /\
    (0 <? c) = true /\ (c <=? 10) = true.
Proof.
  destruct (Float64Facts.consumption_bounds (K := kit) 0 sol0 par0 sol0_solved)
    with (ip := 0%nat) (im := 2%nat) as (c & m & Hc & Hm & Hle & Hpos).
  - intros [|[|[|im]]] m; simpl; intros [= <-]; reflexivity.
  - intros [|ip] [|[|[|im]]] m w_ip; simpl; intros [= <-] [= <-]; vm_compute; reflexivity.
  - vm_compute. reflexivity.
  - reflexivity.
  - reflexivity.
  - simpl in Hm. injection Hm as <-. exists c.
    split; [exact Hc|]. split; [|exact Hle]. apply Hpos. vm_compute. reflexivity.
Defined.

(** The run behind the refutation of C9 as stated: with cash-on-hand levels
    minus infinity and zero, a constant utility, the interpolator that flags
    a query that is not a number, and the optimizer that returns its lower
    bound, the assets [m - c] at the first level are not a number, and the
    stored values are [1] and [0]. *)
Example value_falls :
  solve_bellman (K := kit_flat) 0 sol_inf par_inf = Some sol_inf_solved /\
  slice (sol_v sol_inf_solved) 0 = Some [[1; 0]].
Proof. split; vm_compute; reflexivity. Qed.



End Float64Runs.

(** * Edges, frame and composition of [solve_bellman] *)

Section SliceFacts.
Context {A : Type}.

Lemma py_index_shift (n : nat) (t : Z) :
  (0 <= t < Z.of_nat n)%Z -> py_index n (t - Z.of_nat n) = py_index n t.
Proof.
  intros Ht. unfold py_index.
  rewrite (decide_False (P := (0 <= t - Z.of_nat n < Z.of_nat n)%Z)) by lia.
  rewrite (decide_True (P := (- Z.of_nat n <= t - Z.of_nat n < 0)%Z)) by lia.
  rewrite (decide_True (P := (0 <= t < Z.of_nat n)%Z)) by lia.
  f_equal. lia.
Qed.

(** Replacing a slice by one of the same shape keeps the shape of every
    slice. *)
Lemma slice_insert_shape (a : list (list (list A))) (i : nat) (x y : list (list A)) (t : Z) :
  a !! i = Some x -> shape y = shape x ->
  shape <$> slice (<[i := y]> a) t = shape <$> slice a t.
Proof.
  intros Hx Hsh. unfold slice. rewrite length_insert.
  destruct (py_index (length a) t) as [k|]; simpl; [|done].
  destruct (decide (k = i)) as [->|Hk].
  - rewrite list_lookup_insert_eq by (by eapply lookup_lt_Some). rewrite Hx. simpl. by rewrite Hsh.
  - by rewrite list_lookup_insert_ne.
Qed.

End SliceFacts.

Section Edges.
Context {F U : Type} `{Scalar F} {K : Collaborators F U}.

Implicit Types (sol : Sol F) (par : Par F U) (ip im : nat) (t : Z).

Lemma well_shaped_sched_w ips ims t sol sol' par :
  sol_w sol = sol_w sol' ->
  shape <$> slice (sol_v sol) t = shape <$> slice (sol_v sol') t ->
  shape <$> slice (sol_c sol) t = shape <$> slice (sol_c sol') t ->
  well_shaped_sched ips ims t sol par = well_shaped_sched ips ims t sol' par.
Proof.
  intros Hw Hv Hc. unfold well_shaped_sched.
  destruct (slice (sol_v sol) t) as [v|], (slice (sol_v sol') t) as [v'|];
    simpl in Hv; try done.
  destruct (slice (sol_c sol) t) as [c|], (slice (sol_c sol') t) as [c'|];
    simpl in Hc; try done.
  injection Hv as Hv. injection Hc as Hc. rewrite Hv, Hc.
  apply forallb_pointwise. intros ip. unfold row_ok.
  apply forallb_pointwise. intros im. unfold cell_ok. by rewrite Hw.
Qed.

Lemma solve_slices_shape t sol par sol' t' :
  solve_bellman t sol par = Some sol' ->
  shape <$> slice (sol_v sol') t' = shape <$> slice (sol_v sol) t' /\
  shape <$> slice (sol_c sol') t' = shape <$> slice (sol_c sol) t'.
Proof.
  intros Hs. apply sched_spec in Hs
    as (it_v & v & it_c & c & c' & v' & Htv & Hv & Htc & Hc & _ & _ & [Hc' _] & [Hv' _] & ->).
  simpl. split; by eapply slice_insert_shape.
Qed.

End Edges.

Section EdgeProperties.
Context {F U : Type} `{Scalar F} {K : Collaborators F U}.

Implicit Types (sol : Sol F) (par : Par F U) (ip im : nat) (t : Z).

(** X2.  Inside the solved period, the cells outside the [Np] by [Nm] box
    keep their content. *)
Theorem solve_bellman_outside_box t sol par sol' ip im :
  solve_bellman t sol par = Some sol' ->
  ~ ((Z.of_nat ip < Np par)%Z /\ (Z.of_nat im < Nm par)%Z) ->
  get3 (sol_c sol') t ip im = get3 (sol_c sol) t ip im /\
  get3 (sol_v sol') t ip im = get3 (sol_v sol) t ip im.
Proof.
  intros Hs Hout. apply sched_spec in Hs
    as (it_v & v & it_c & c & c' & v' & Htv & Hv & Htc & Hc & Hsv & Hsc & [_ Hc'] & [_ Hv'] & ->).
  unfold get3. rewrite Hsv, Hsc. unfold slice. rewrite Htv, Htc. simpl. rewrite Hv, Hc. simpl.
  rewrite <- !elem_of_range in Hout.
  destruct (Hc' ip im) as [_ Hcc], (Hv' ip im) as [_ Hvv].
  by rewrite Hcc, Hvv.
Qed.

(** X3.  No slice of [sol.c] or [sol.v] changes shape, and on the returned
    container the shape conditions hold for the same periods and parameter
    sets as before: the call can be followed by any call that was possible
    before it. *)
Theorem solve_bellman_keeps_well_shaped t sol par sol' :
  solve_bellman t sol par = Some sol' ->
  forall t' (par' : Par F U), well_shaped t' sol' par' = well_shaped t' sol par'.
Proof.
  intros Hs t' par'.
  destruct (solve_slices_shape t sol par sol' t' Hs) as [Hv Hc].
  apply well_shaped_sched_w; [|done..].
  by apply sched_spec in Hs as (? & ? & ? & ? & ? & ? & _ & _ & _ & _ & _ & _ & _ & _ & ->).
Qed.

(** X6.  With no income level ([Np <= 0]), or with no cash-on-hand level
    ([Nm <= 0]) and [grid_p] long enough, a call on an existing period
    returns the container exactly as it was. *)
Theorem solve_bellman_empty_grid t sol par :
  (Np par <= 0)%Z \/ ((Nm par <= 0)%Z /\ (Np par <= Z.of_nat (length (grid_p par)))%Z) ->
  is_Some (slice (sol_v sol) t) -> is_Some (slice (sol_c sol) t) ->
  solve_bellman t sol par = Some sol.
Proof.
  intros Hempty [v Hv] [c Hc]. unfold slice in Hv, Hc.
  destruct (py_index (length (sol_v sol)) t) as [it_v|] eqn:Htv; simpl in Hv; [|done].
  destruct (py_index (length (sol_c sol)) t) as [it_c|] eqn:Htc; simpl in Hc; [|done].
  assert (Hrun : for_range (row_step sol par (range (Nm par))) (range (Np par)) (c, v)
                 = Some (c, v)).
  { destruct Hempty as [HNp|[HNm HNp]].
    - unfold range at 2. by replace (Z.to_nat (Np par)) with 0%nat by lia.
    - assert (Hl : forall ips, (forall ip, ip ∈ ips -> (ip < length (grid_p par))%nat) ->
                for_range (row_step sol par (range (Nm par))) ips (c, v) = Some (c, v)).
      { induction ips as [|ip ips IH]; intros Hips; [done|]. simpl.
        assert (Hstep : row_step sol par (range (Nm par)) ip (c, v) = Some (c, v)).
        { rewrite row_step_cells.
          unfold range. by replace (Z.to_nat (Nm par)) with 0%nat by lia. }
        rewrite Hstep. simpl. apply IH. intros ip' Hip'. apply Hips. by right. }
      apply Hl. intros ip Hip%elem_of_range. lia. }
  apply sched_Some. exists it_v, v, it_c, c, c, v. repeat split; try done.
  rewrite !list_insert_id by done. by destruct sol.
Qed.

(** X7.  The period is addressed as Python does: when [sol.v] and [sol.c]
    hold [T] periods, [t - T] denotes the same period as [t], and the call
    has the same outcome. *)
Theorem solve_bellman_negative_index t sol par :
  length (sol_c sol) = length (sol_v sol) ->
  (0 <= t < Z.of_nat (length (sol_v sol)))%Z ->
  solve_bellman (t - Z.of_nat (length (sol_v sol))) sol par = solve_bellman t sol par.
Proof.
  intros Hlen Ht. unfold solve_bellman, solve_bellman_sched.
  rewrite Hlen. by rewrite !py_index_shift.
Qed.

(** X9.  Calls on two different periods commute: solving [t1] and then
    [t2] leaves the container that solving [t2] and then [t1] leaves. *)
Theorem solve_bellman_periods_commute t1 t2 sol par s1 s12 :
  py_index (length (sol_v sol)) t1 <> py_index (length (sol_v sol)) t2 ->
  py_index (length (sol_c sol)) t1 <> py_index (length (sol_c sol)) t2 ->
  solve_bellman t1 sol par = Some s1 ->
  solve_bellman t2 s1 par = Some s12 ->
  exists s2, solve_bellman t2 sol par = Some s2 /\ solve_bellman t1 s2 par = Some s12.
Proof.
  intros Hnv Hnc
    (iv1 & v1 & ic1 & c1 & c1' & v1' & Htv1 & Hv1 & Htc1 & Hc1 & Hrun1 & ->)%sched_Some
    (iv2 & v2 & ic2 & c2 & c2' & v2' & Htv2 & Hv2 & Htc2 & Hc2 & Hrun2 & ->)%sched_Some.
  simpl in *. rewrite length_insert in Htv2, Htc2.
  assert (iv1 <> iv2) by congruence. assert (ic1 <> ic2) by congruence.
  rewrite list_lookup_insert_ne in Hv2, Hc2 by done.
  exists (mkSol (<[iv2 := v2']> (sol_v sol)) (<[ic2 := c2']> (sol_c sol)) (sol_w sol)). split.
  - apply sched_Some. by exists iv2, v2, ic2, c2, c2', v2'.
  - apply sched_Some. exists iv1, v1, ic1, c1, c1', v1'. simpl.
    rewrite !length_insert, !list_lookup_insert_ne by done.
    do 5 (split; [done|]). f_equal; by apply list_insert_insert_ne.
Qed.

(** X11.  Two grid points with the same cash-on-hand level and the same
    continuation row end up with the same consumption and the same value:
    the income level itself plays no part. *)
Theorem solve_bellman_equal_inputs t sol par sol' ip1 ip2 im1 im2 :
  solve_bellman t sol par = Some sol' ->
  (Z.of_nat ip1 < Np par)%Z -> (Z.of_nat ip2 < Np par)%Z ->
  (Z.of_nat im1 < Nm par)%Z -> (Z.of_nat im2 < Nm par)%Z ->
  grid_m par !! im1 = grid_m par !! im2 ->
  sol_w sol !! ip1 = sol_w sol !! ip2 ->
  get3 (sol_c sol') t ip1 im1 = get3 (sol_c sol') t ip2 im2 /\
  get3 (sol_v sol') t ip1 im1 = get3 (sol_v sol') t ip2 im2.
Proof.
  intros Hs Hip1%elem_of_range Hip2%elem_of_range Him1%elem_of_range Him2%elem_of_range Hm Hw.
  destruct (sched_cells _ _ _ _ _ _ ip1 im1 Hs Hip1 Him1) as (m1 & w1 & Hm1 & Hw1 & -> & ->).
  destruct (sched_cells _ _ _ _ _ _ ip2 im2 Hs Hip2 Him2) as (m2 & w2 & Hm2 & Hw2 & -> & ->).
  assert (m2 = m1) as -> by congruence. assert (w2 = w1) as -> by congruence. done.
Qed.

End EdgeProperties.

(** * Edges that depend on the arithmetic *)

Module Float64Edge.
Import Float64.
Local Open Scope float_scope.

Lemma opp_involutive (x : float) : - - x = x.
Proof.
  apply Prim2SF_inj. rewrite !opp_spec.
  destruct (Prim2SF x) as [s|s| |s m e]; simpl; try done; by rewrite negb_involutive.
Qed.

Lemma SFcompare_refl (x : spec_float) : x <> S754_nan -> SFcompare x x = Some Eq.
Proof.
  destruct x as [s|s| |s m e]; simpl; try done; intros _.
  - by destruct s.
  - rewrite Z.compare_refl, Pos.compare_cont_refl. by destruct s.
Qed.

Lemma is_nan_true (x : float) : is_nan x = true <-> x = nan.
Proof.
  unfold is_nan. rewrite FloatAxioms.eqb_spec. unfold SFeqb. split.
  - intros Hn. apply Prim2SF_inj. change (Prim2SF nan) with S754_nan.
    destruct (Prim2SF x) as [s|s| |s m e] eqn:Hx; [exfalso..|done|exfalso];
      by rewrite SFcompare_refl in Hn.
  - by intros ->.
Qed.

Lemma leb_not_nan (x y : float) : (x <=? y) = true -> is_nan x = false.
Proof.
  intros Hle. destruct (is_nan x) eqn:Hn; [|done].
  apply is_nan_true in Hn as ->. rewrite leb_spec in Hle.
  change (Prim2SF nan) with S754_nan in Hle. done.
Qed.

Lemma add_nan (x y : float) : x = nan \/ y = nan -> x + y = nan.
Proof.
  intros Hn. apply Prim2SF_inj. rewrite add_spec. change (Prim2SF nan) with S754_nan.
  destruct Hn as [-> | ->].
  - reflexivity.
  - change (Prim2SF nan) with S754_nan. by destruct (Prim2SF x).
Qed.

Section Claims.
Context {U : Type} {K : Collaborators float U}.

(** X12.  Whatever the cash-on-hand level (negative, infinite, not a
    number), the lower end of the bracket handed to the optimizer is a number
    and is at most [1e-8]. *)
Theorem bracket_low_bounded (m : float) :
  is_nan (bracket_low m) = false /\ (bracket_low m <=? eps) = true.
Proof.
  unfold bracket_low. simpl. unfold fmin.
  destruct (m / 2 <=? eps) eqn:Hle; simpl.
  - split; [by eapply leb_not_nan|done].
  - split; reflexivity.
Qed.

(** X13.  The two sign flips cancel exactly: the value stored at a grid
    point is the utility of the stored consumption plus the continuation
    value interpolated at the assets it leaves. *)
Theorem stored_value_is_total_value t sol par sol' ip im :
  solve_bellman t sol par = Some sol' ->
  (Z.of_nat ip < Np par)%Z -> (Z.of_nat im < Nm par)%Z ->
  exists c m w_ip,
    get3 (sol_c sol') t ip im = Some c /\
    grid_m par !! im = Some m /\ sol_w sol !! ip = Some w_ip /\
    get3 (sol_v sol') t ip im =
      Some (utility_func c par + interp_1d (grid_a par) w_ip (m - c)).
Proof.
  intros Hs Hip%elem_of_range Him%elem_of_range.
  destruct (sched_cells _ _ _ _ _ _ ip im Hs Hip Him) as (m & w_ip & Hm & Hw & Hc & Hv).
  exists (cell_c par w_ip m), m, w_ip. repeat split; try done.
  rewrite Hv. unfold cell_v, obj_bellman. simpl. by rewrite opp_involutive.
Qed.

(** X14.  A utility or a continuation value that is not a number at the
    stored consumption makes the stored value NaN. *)
Theorem nan_reaches_value t sol par sol' ip im c m w_ip :
  solve_bellman t sol par = Some sol' ->
  (Z.of_nat ip < Np par)%Z -> (Z.of_nat im < Nm par)%Z ->
  get3 (sol_c sol') t ip im = Some c ->
  grid_m par !! im = Some m -> sol_w sol !! ip = Some w_ip ->
  is_nan (utility_func c par) = true \/
  is_nan (interp_1d (grid_a par) w_ip (m - c)) = true ->
  get3 (sol_v sol') t ip im = Some nan.
Proof.
  intros Hs Hip%elem_of_range Him%elem_of_range Hc Hm Hw Hnan.
  destruct (sched_cells _ _ _ _ _ _ ip im Hs Hip Him) as (m' & w' & Hm' & Hw' & Hc' & Hv').
  assert (m' = m) as -> by congruence. assert (w' = w_ip) as -> by congruence.
  assert (cell_c par w_ip m = c) as Hcc by congruence.
  rewrite Hv'. unfold cell_v. rewrite Hcc. unfold obj_bellman. simpl.
  rewrite opp_involutive. f_equal. apply add_nan.
  rewrite <- !is_nan_true. exact Hnan.
Qed.

End Claims.

End Float64Edge.

(** * The edges at work *)

Section EdgeRuns.
Import Float64 Float64Run EdgeRun.
Local Open Scope float_scope.

(** A container of three rows and four columns solved on the one by three
    grid: the last row and the last column are as before. *)
Lemma solve_bellman_outside_box_witness :
  get3 (sol_c sol_wide_solved) 0 2 3 = get3 (sol_c sol_wide) 0 2 3 /\
  get3 (sol_v sol_wide_solved) 0 2 3 = get3 (sol_v sol_wide) 0 2 3.
Proof.
  apply (solve_bellman_outside_box (K := kit) 0 sol_wide par0 sol_wide_solved 2 3).
  - vm_compute. reflexivity.
  - intros [Hip _]. vm_compute in Hip. discriminate.
Defined.

Lemma solve_bellman_keeps_well_shaped_witness :
  well_shaped 1 sol0_solved par_twice = well_shaped 1 sol0 par_twice.
Proof.
  apply (solve_bellman_keeps_well_shaped (K := kit) 0 sol0 par0 sol0_solved).
  vm_compute. reflexivity.
Defined.

Lemma solve_bellman_empty_grid_witness :
  solve_bellman (K := kit) 1 sol0 par_no_income = Some sol0.
Proof.
  apply (solve_bellman_empty_grid (K := kit) 1 sol0 par_no_income).
  - left. vm_compute. discriminate.
  - vm_compute. eauto.
  - vm_compute. eauto.
Defined.

Lemma solve_bellman_negative_index_witness :
  solve_bellman (K := kit) (1 - Z.of_nat (length (sol_v sol0))) sol0 par0
  = solve_bellman (K := kit) 1 sol0 par0.
Proof.
  apply (solve_bellman_negative_index (K := kit) 1 sol0 par0).
  - reflexivity.
  - split; [vm_compute; discriminate|reflexivity].
Defined.

Lemma solve_bellman_periods_commute_witness :
  exists s2, solve_bellman (K := kit) 1 sol0 par0 = Some s2 /\
             solve_bellman (K := kit) 0 s2 par0 = Some sol0_solved_both.
Proof.
  apply (solve_bellman_periods_commute (K := kit) 0 1 sol0 par0 sol0_solved sol0_solved_both).
  - vm_compute. discriminate.
  - vm_compute. discriminate.
  - vm_compute. reflexivity.
  - vm_compute. reflexivity.
Defined.

Lemma solve_bellman_equal_inputs_witness :
  get3 (sol_c sol_twice_solved) 0 0 0 = get3 (sol_c sol_twice_solved) 0 1 2 /\
  get3 (sol_v sol_twice_solved) 0 0 0 = get3 (sol_v sol_twice_solved) 0 1 2.
Proof.
  apply (solve_bellman_equal_inputs (K := kit) 0 sol_twice par_twice sol_twice_solved 0 1 0 2).
  - vm_compute. reflexivity.
  - reflexivity.
  - reflexivity.
  - reflexivity.
  - reflexivity.
  - reflexivity.
  - reflexivity.
Defined.

Lemma stored_value_is_total_value_witness :
  exists c m w_ip,
    get3 (sol_c sol0_solved) 0 0 1 = Some c /\
    grid_m par0 !! 1%nat = Some m /\ sol_w sol0 !! 0%nat = Some w_ip /\
    get3 (sol_v sol0_solved) 0 0 1 =
      Some (utility_func (Collaborators := kit) c par0
            + interp_1d (Collaborators := kit) (grid_a par0) w_ip (m - c)).
Proof.
  apply (Float64Edge.stored_value_is_total_value (K := kit) 0 sol0 par0 sol0_solved 0 1).
  - vm_compute. reflexivity.
  - reflexivity.
  - reflexivity.
Defined.

Lemma nan_reaches_value_witness : get3 (sol_v sol0_broken) 0 0 1 = Some nan.
Proof.
  eapply (Float64Edge.nan_reaches_value (K := kit_broken) 0 sol0 par0 sol0_broken 0 1).
  - vm_compute. reflexivity.
  - reflexivity.
  - reflexivity.
  - reflexivity.
  - reflexivity.
  - reflexivity.
  - left. reflexivity.
Defined.

End EdgeRuns.
